(** * Safety primitives of the robot (primitives.py)

    A shallow embedding of the three loop primitives [LimitOverLoad],
    [LimitSpeed] and [LimitTemperature] and of the properties their
    periodic [update] enjoys.

    Numbers.  Python's readings are floats (or ints); they are embedded in
    the rationals [Q], on which comparison, [abs], subtraction,
    multiplication and division are exact.  The rounding of binary floating
    point, infinities and NaN are outside this model; [math.pi] is the
    rational the double [math.pi] denotes.

    State.  The motors of the robot are mutable objects shared by the three
    primitives; [update] reads their registers and may set their
    [compliant] attribute.  The state threads the list of motors, the text
    sent to standard output (as a trace of events) and the dictionary
    [prev_position] owned by the [LimitSpeed] instance.  An exception leaves
    the state as it was when it was raised. *)

From Stdlib Require Import QArith Qabs Lqa.
From stdpp Require Import gmap strings list fin_maps.

Local Open Scope string_scope.
Local Open Scope list_scope.
Local Open Scope Q_scope.

(** ** Data *)

(** The attributes of a pypot motor the primitives read or write. *)
Record Motor := mkMotor {
  name : string;
  model : string;
  present_load : Q;
  present_position : Q;
  present_temperature : Q;
  compliant : bool
}.

(** The exceptions [update] can raise: the explicit [ValueError], and the
    implicit ones of the dictionary subscript, of the list subscript and of
    the division. *)
Inductive exn :=
| ValueError (msg : string)
| KeyError (key : string)
| IndexError
| ZeroDivisionError.

(** What a tick does to the outside: a line printed (the label and the
    dictionary that [format] renders) and an assignment [m.compliant = v]. *)
Inductive event :=
| PrintLine (label : string) (offenders : gmap string Q)
| SetCompliant (motor : string) (value : bool).

Record State := mkState {
  motors : list Motor;
  stdout : list event;
  prev_position : gmap string (list Q)
}.

(** ** Constants *)

Definition LOAD_LIMIT : Q := 60.
Definition math_pi : Q := 884279719003555 # 281474976710656.
Definition SPEED_LIMIT : Q := 4 * math_pi.
Definition TEMPERATURE_LIMIT : Q := 60.

(** [math.radians]: the argument times [pi / 180]. *)
Definition math_radians (x : Q) : Q := x * (math_pi / 180).

(** [x > y] on numbers. *)
Definition Qgtb (x y : Q) : bool := negb (Qle_bool x y).

(** ** A state and exception monad for the bodies of [update] *)

Definition M (A : Type) : Type := State -> (exn + A) * State.

Definition ret {A} (a : A) : M A := fun s => (inr a, s).

Definition bind {A B} (c : M A) (k : A -> M B) : M B :=
  fun s =>
    match c s with
    | (inl e, s') => (inl e, s')
    | (inr a, s') => k a s'
    end.

(** The result of a computation that touches no state. *)
Definition lift {A} (r : exn + A) : M A := fun s => (r, s).

Definition gets {A} (f : State -> A) : M A := fun s => (inr (f s), s).

Definition modify (f : State -> State) : M unit := fun s => (inr tt, f s).

(** stdpp's notations [x ← c; k] and [c;; k] for this monad. *)
#[global] Instance M_ret : MRet M := @ret.
#[global] Instance M_bind : MBind M := fun A B k c => bind c k.

(** ** Effects shared by the three primitives *)

(** [print(label.format(d))] *)
Definition print (label : string) (d : gmap string Q) : M unit :=
  modify (fun s =>
    mkState (motors s) (stdout s ++ [PrintLine label d]) (prev_position s)).

Definition make_compliant (m : Motor) : Motor :=
  mkMotor (name m) (model m) (present_load m) (present_position m)
          (present_temperature m) true.

(** [for m in self._robot.motors: m.compliant = True] *)
Definition release_all : M unit :=
  modify (fun s =>
    mkState (make_compliant <$> motors s)
            (stdout s ++ ((fun m => SetCompliant (name m) true) <$> motors s))
            (prev_position s)).

(** A dictionary is true when it is not empty. *)
Definition truthy (d : gmap string Q) : bool := negb (bool_decide (d = ∅)).

(** ** LimitOverLoad *)

Definition overloaded (m : Motor) : bool :=
  Qgtb (Qabs (present_load m)) LOAD_LIMIT && negb (compliant m).

(** The first loop of [LimitOverLoad.update], from the dictionary [d]. *)
Fixpoint overload_loop (ms : list Motor) (d : gmap string Q) : gmap string Q :=
  match ms with
  | [] => d
  | m :: rest =>
      overload_loop rest
        (if overloaded m then <[name m := present_load m]> d else d)
  end.

Definition LimitOverLoad_update : M unit :=
  ms ← gets motors;
  let overloaded_motors := overload_loop ms ∅ in
  if truthy overloaded_motors
  then print "overloaded motors: " overloaded_motors;; release_all
  else ret tt.

(** ** LimitSpeed *)

(** [__init__]: an empty dictionary. *)
Definition LimitSpeed_init (ms : list Motor) : State := mkState ms [] ∅.

(** [setup]: every motor's name is bound to the one-element list of its
    position. *)
Fixpoint setup_loop (ms : list Motor) (d : gmap string (list Q))
  : gmap string (list Q) :=
  match ms with
  | [] => d
  | m :: rest => setup_loop rest (<[name m := [present_position m]]> d)
  end.

Definition LimitSpeed_setup : M unit :=
  modify (fun s =>
    mkState (motors s) (stdout s) (setup_loop (motors s) (prev_position s))).

(** The resolution of a model, in degrees, or the [ValueError]. *)
Definition resolution_of (m : Motor) : exn + Q :=
  if bool_decide (model m ∈ ["MX-28"; "MX-64"]) then inr 0.088
  else if bool_decide (model m ∈ ["AX-12"]) then inr 0.29
  else inl (ValueError "unknown motor model.").

(** [d[key]] *)
Definition getitem (d : gmap string (list Q)) (key : string) : exn + list Q :=
  match d !! key with
  | Some l => inr l
  | None => inl (KeyError key)
  end.

(** [l[0]] *)
Definition first (l : list Q) : exn + Q :=
  match l with
  | x :: _ => inr x
  | [] => inl IndexError
  end.

(** [x / y] *)
Definition truediv (x y : Q) : exn + Q :=
  if Qeq_bool y 0 then inl ZeroDivisionError else inr (x / y).

(** The body of the loop of [LimitSpeed.update] up to the second assignment
    of [speed]: the speed of one motor in rad/s, or the exception. *)
Definition motor_speed (freq : Q) (prev : gmap string (list Q)) (m : Motor)
  : exn + Q :=
  match resolution_of m with
  | inl e => inl e
  | inr resolution =>
      match getitem prev (name m) with
      | inl e => inl e
      | inr l =>
          match first l with
          | inl e => inl e
          | inr p =>
              match truediv ((present_position m - p) * resolution) freq with
              | inl e => inl e
              | inr speed => inr (math_radians speed)
              end
          end
      end
  end.

(** The first loop of [LimitSpeed.update], from the dictionary [d]; the
    exception of a motor ends it. *)
Fixpoint speed_loop (freq : Q) (prev : gmap string (list Q))
    (ms : list Motor) (d : gmap string Q) : exn + gmap string Q :=
  match ms with
  | [] => inr d
  | m :: rest =>
      match motor_speed freq prev m with
      | inl e => inl e
      | inr speed =>
          speed_loop freq prev rest
            (if Qgtb (Qabs speed) SPEED_LIMIT then <[name m := speed]> d else d)
      end
  end.

Definition LimitSpeed_update (freq : Q) : M unit :=
  ms ← gets motors;
  prev ← gets prev_position;
  overspeeding_motors ← lift (speed_loop freq prev ms ∅);
  if truthy overspeeding_motors
  then print "overspeeding motors: " overspeeding_motors;; release_all
  else ret tt.

(** ** LimitTemperature *)

Definition overheating (m : Motor) : bool :=
  Qgtb (present_temperature m) TEMPERATURE_LIMIT.

(** The first loop of [LimitTemperature.update], from the dictionary [d]. *)
Fixpoint overheat_loop (ms : list Motor) (d : gmap string Q) : gmap string Q :=
  match ms with
  | [] => d
  | m :: rest =>
      overheat_loop rest
        (if overheating m then <[name m := present_temperature m]> d else d)
  end.

Definition LimitTemperature_update : M unit :=
  ms ← gets motors;
  let overheating_motors := overheat_loop ms ∅ in
  if truthy overheating_motors
  then print "overheated motors: " overheating_motors;; release_all
  else ret tt.

(** ** The driver layer *)

(** Between two calls the driver refreshes the registers of the motors: the
    primitives see the new readings, their own state is kept. *)
Definition refresh (ms : list Motor) (s : State) : State :=
  mkState ms (stdout s) (prev_position s).


(** ** Vocabulary of the properties *)

(** The loops of [LimitOverLoad.update] and [LimitTemperature.update] have
    one shape: a test on the motor and the reading that is recorded. *)
Fixpoint record_loop (trip : Motor -> bool) (reading : Motor -> Q)
    (ms : list Motor) (d : gmap string Q) : gmap string Q :=
  match ms with
  | [] => d
  | m :: rest =>
      record_loop trip reading rest
        (if trip m then <[name m := reading m]> d else d)
  end.

(** The models [LimitSpeed.update] has a resolution for. *)
Definition known_model (m : Motor) : Prop :=
  model m ∈ ["MX-28"; "MX-64"] \/ model m ∈ ["AX-12"].

#[global] Instance known_model_dec (m : Motor) : Decision (known_model m).
Proof. unfold known_model. apply _. Defined.

(** What one tick that trips leaves behind: every motor of the robot is
    compliant, and the trace has grown by one line and by one assignment per
    motor, in the order of the list. *)
Definition released_once (label : string) (d : gmap string Q)
    (s s' : State) : Prop :=
  motors s' = make_compliant <$> motors s /\
  Forall (fun m => compliant m = true) (motors s') /\
  stdout s' =
    stdout s ++ PrintLine label d
             :: ((fun m => SetCompliant (name m) true) <$> motors s) /\
  prev_position s' = prev_position s.

(** Two states of one motor that differ at most in [compliant]. *)
Definition same_readings (m m' : Motor) : Prop :=
  name m' = name m /\ model m' = model m /\
  present_load m' = present_load m /\
  present_position m' = present_position m /\
  present_temperature m' = present_temperature m.

(** An [update] that wrote nothing but [compliant] attributes. *)
Definition only_compliant_written (s s' : State) : Prop :=
  Forall2 same_readings (motors s) (motors s') /\
  prev_position s' = prev_position s.

(** ** Sample robots *)

(** A motor of the given name and model that is not compliant, with the
    load, position and temperature given. *)
Definition motor (n mdl : string) (load position temperature : Q) : Motor :=
  mkMotor n mdl load position temperature false.

(** The state of the [LimitSpeed] primitive after [__init__], [setup] on
    the readings [ms0] and a refresh of the registers to the readings [ms1]:
    what the first [update] runs on. *)
Definition first_tick (ms0 ms1 : list Motor) : State :=
  refresh ms1 (snd (LimitSpeed_setup (LimitSpeed_init ms0))).

(** Scenario of the overload rule: "m1" carries a load of 75. *)
Definition overloaded_robot : State :=
  LimitSpeed_init [motor "m1" "MX-28" 75 0 30; motor "m2" "AX-12" 10 0 30].

(** "m1" is at 61 degrees Celsius. *)
Definition overheated_robot : State :=
  LimitSpeed_init [motor "m1" "MX-28" 0 0 61; motor "m2" "AX-12" 0 0 30].

(** Nothing is above a limit, and no motor has moved since [setup]. *)
Definition quiet_robot : State :=
  first_tick [motor "m1" "MX-28" 10 0 30; motor "m2" "AX-12" 10 10 30]
             [motor "m1" "MX-28" 10 0 30; motor "m2" "AX-12" 10 10 30].

(** A loop at 0.1 Hz: "m1", an AX-12, has swept its whole range, from -150
    to 150 degrees, between [setup] and the tick. *)
Definition slow_loop_freq : Q := 0.1.

Definition fast_robot : State :=
  first_tick [motor "m1" "AX-12" 0 (-150) 30; motor "m2" "MX-28" 0 10 30]
             [motor "m1" "AX-12" 0 150 30; motor "m2" "MX-28" 0 10 30].

(** The same sweep of "m1", with a motor "m3" of an unknown model after it
    in the list. *)
Definition misconfigured_robot : State :=
  first_tick [motor "m1" "AX-12" 0 (-150) 30; motor "m3" "XYZ-99" 0 0 30]
             [motor "m1" "AX-12" 0 150 30; motor "m3" "XYZ-99" 0 0 30].

(** A loop at 50 Hz: "m1", an MX-28, has turned from -90 to 90 degrees
    between [setup] and the tick. *)
Definition turning_robot : State :=
  first_tick [motor "m1" "MX-28" 0 (-90) 30] [motor "m1" "MX-28" 0 90 30].

(** Scenario of the speed rule, with a move: "m2" was at 10 degrees at
    [setup] and is at 20 degrees at the tick. *)
Definition moved_robot : State :=
  first_tick [motor "m2" "MX-28" 0 10 30] [motor "m2" "MX-28" 0 20 30].

(** Every motor is compliant already; the loads are above the limit. *)
Definition released_robot : State :=
  LimitSpeed_init [mkMotor "m1" "MX-28" 75 0 30 true;
                   mkMotor "m2" "AX-12" (-90) 0 30 true].

(** A motor of a known model whose stored position is at most one turn
    away from where it is now. *)
Definition within_a_turn (prev : gmap string (list Q)) (m : Motor) : Prop :=
  known_model m /\
  exists p history, prev !! name m = Some (p :: history) /\
                    Qabs (present_position m - p) <= 360.

(** [update] is run on a [LimitSpeed] whose [setup] has not run. *)
Definition unseeded_robot : State :=
  LimitSpeed_init [motor "m1" "MX-28" 0 0 30; motor "m2" "AX-12" 0 0 30].

(** * Properties *)

(** ** Comparisons *)

Lemma Qgtb_lt (x y : Q) : Qgtb x y = true <-> y < x.
Proof.
  unfold Qgtb. rewrite negb_true_iff. split.
  - intros H. apply Qnot_le_lt. intros Hle.
    apply Qle_bool_iff in Hle. congruence.
  - intros H. destruct (Qle_bool x y) eqn:E; [|reflexivity].
    apply Qle_bool_iff in E. exfalso. exact (Qlt_not_le _ _ H E).
Qed.

Lemma Qgtb_le (x y : Q) : Qgtb x y = false <-> x <= y.
Proof.
  unfold Qgtb. rewrite negb_false_iff. apply Qle_bool_iff.
Qed.

#[global] Instance Qgtb_comp : Proper (Qeq ==> Qeq ==> eq) Qgtb.
Proof. intros x x' Hx y y' Hy. unfold Qgtb. by rewrite Hx, Hy. Qed.

Lemma overloaded_spec (m : Motor) :
  overloaded m = true <->
  compliant m = false /\ LOAD_LIMIT < Qabs (present_load m).
Proof.
  unfold overloaded. rewrite andb_true_iff, negb_true_iff, Qgtb_lt. tauto.
Qed.

Lemma overheating_spec (m : Motor) :
  overheating m = true <-> TEMPERATURE_LIMIT < present_temperature m.
Proof. apply Qgtb_lt. Qed.

(** ** Unique names *)

(** The names of the motors of a robot are pairwise distinct: a name picks
    one motor of the list. *)
Lemma unique_name (ms : list Motor) (m m' : Motor) :
  NoDup (name <$> ms) -> m ∈ ms -> m' ∈ ms -> name m = name m' -> m = m'.
Proof.
  induction ms as [|m0 rest IH]; intros Hnd Hm Hm' Hname.
  - by apply elem_of_nil in Hm.
  - rewrite fmap_cons in Hnd. apply NoDup_cons in Hnd as [Hfresh Hnd].
    apply elem_of_cons in Hm as [->|Hm]; apply elem_of_cons in Hm' as [->|Hm'].
    + reflexivity.
    + exfalso. apply Hfresh. rewrite Hname. by apply list_elem_of_fmap_2.
    + exfalso. apply Hfresh. rewrite <- Hname. by apply list_elem_of_fmap_2.
    + by apply IH.
Qed.

(** ** Loops that record the offending motors *)

Section Recording.
Variable trip : Motor -> bool.
Variable reading : Motor -> Q.

(** A name none of whose motors trips keeps the entry it had. *)
Lemma record_loop_lookup_quiet (k : string) (ms : list Motor)
    (d : gmap string Q) :
  (forall m, m ∈ ms -> name m = k -> trip m = false) ->
  record_loop trip reading ms d !! k = d !! k.
Proof.
  revert d. induction ms as [|m0 rest IH]; intros d Hq; [done|].
  simpl. rewrite IH.
  - destruct (trip m0) eqn:E; [|done].
    destruct (decide (name m0 = k)) as [Hk|Hk].
    + rewrite (Hq m0) in E; [done| |done]. apply elem_of_cons. by left.
    + by rewrite lookup_insert_ne.
  - intros m Hm. apply Hq. apply elem_of_cons. by right.
Qed.

(** A motor that trips is recorded with its reading. *)
Lemma record_loop_lookup_trip (ms : list Motor) (d : gmap string Q)
    (m : Motor) :
  NoDup (name <$> ms) -> m ∈ ms -> trip m = true ->
  record_loop trip reading ms d !! name m = Some (reading m).
Proof.
  revert d. induction ms as [|m0 rest IH]; intros d Hnd Hm Ht.
  - by apply elem_of_nil in Hm.
  - rewrite fmap_cons in Hnd. apply NoDup_cons in Hnd as [Hfresh Hnd].
    simpl. apply elem_of_cons in Hm as [->|Hm].
    + rewrite Ht. rewrite record_loop_lookup_quiet.
      * apply lookup_insert_eq.
      * intros m' Hm' Hn. exfalso. apply Hfresh. rewrite <- Hn.
        by apply list_elem_of_fmap_2.
    + by apply IH.
Qed.

(** With unique names, the dictionary built from the empty one holds
    exactly the motors that trip. *)
Lemma record_loop_spec (ms : list Motor) (m : Motor) :
  NoDup (name <$> ms) -> m ∈ ms ->
  record_loop trip reading ms ∅ !! name m =
  if trip m then Some (reading m) else None.
Proof.
  intros Hnd Hm. destruct (trip m) eqn:E.
  - by apply record_loop_lookup_trip.
  - rewrite record_loop_lookup_quiet; [apply lookup_empty|].
    intros m' Hm' Hn. by rewrite (unique_name ms m' m).
Qed.

(** Nothing trips: nothing is recorded. *)
Lemma record_loop_quiet (ms : list Motor) (d : gmap string Q) :
  (forall m, m ∈ ms -> trip m = false) -> record_loop trip reading ms d = d.
Proof.
  intros Hq. apply map_eq. intros k. apply record_loop_lookup_quiet.
  intros m Hm _. by apply Hq.
Qed.
End Recording.

Lemma overload_loop_record (ms : list Motor) (d : gmap string Q) :
  overload_loop ms d = record_loop overloaded present_load ms d.
Proof. revert d. induction ms as [|m rest IH]; intros d; simpl; auto. Qed.

Lemma overheat_loop_record (ms : list Motor) (d : gmap string Q) :
  overheat_loop ms d = record_loop overheating present_temperature ms d.
Proof. revert d. induction ms as [|m rest IH]; intros d; simpl; auto. Qed.

(** No motor above the limit: the dictionary stays empty. *)
Lemma overload_loop_quiet (ms : list Motor) :
  (forall m, m ∈ ms -> overloaded m = false) -> overload_loop ms ∅ = ∅.
Proof. rewrite overload_loop_record. apply record_loop_quiet. Qed.

Lemma overheat_loop_quiet (ms : list Motor) :
  (forall m, m ∈ ms -> overheating m = false) -> overheat_loop ms ∅ = ∅.
Proof. rewrite overheat_loop_record. apply record_loop_quiet. Qed.

(** Scenario: "m1" with a load of 75 is the one overloaded motor, and the
    tick releases "m1" and "m2". *)
Example overloaded_robot_verdict :
  overload_loop (motors overloaded_robot) ∅ = {["m1" := 75]} /\
  compliant <$> motors (snd (LimitOverLoad_update overloaded_robot))
  = [true; true].
Proof. split; by vm_compute. Qed.

(** Scenario: no movement since [setup], no overspeeding motor. *)
Example quiet_robot_verdict :
  speed_loop 50 (prev_position quiet_robot) (motors quiet_robot) ∅ = inr ∅.
Proof. by vm_compute. Qed.

(** ** The second half of an [update]: print and release *)

Lemma truthy_spec (d : gmap string Q) : truthy d = true <-> d ≠ ∅.
Proof.
  unfold truthy. rewrite negb_true_iff, bool_decide_eq_false. tauto.
Qed.

Lemma truthy_empty (d : gmap string Q) : truthy d = false <-> d = ∅.
Proof.
  unfold truthy. rewrite negb_false_iff, bool_decide_eq_true. tauto.
Qed.

Lemma print_release (label : string) (d : gmap string Q) (s : State) :
  exists s', (print label d;; release_all) s = (inr tt, s') /\
             released_once label d s s'.
Proof.
  eexists. split; [reflexivity|]. unfold released_once. simpl.
  repeat split.
  - apply Forall_fmap, Forall_true. by intros m.
  - by rewrite <- app_assoc.
Qed.

Lemma LimitOverLoad_update_unfold (s : State) :
  LimitOverLoad_update s =
  if truthy (overload_loop (motors s) ∅)
  then (print "overloaded motors: " (overload_loop (motors s) ∅);;
        release_all) s
  else (inr tt, s).
Proof.
  unfold LimitOverLoad_update, mbind, M_bind, bind, gets.
  by destruct (truthy (overload_loop (motors s) ∅)).
Qed.

Lemma LimitTemperature_update_unfold (s : State) :
  LimitTemperature_update s =
  if truthy (overheat_loop (motors s) ∅)
  then (print "overheated motors: " (overheat_loop (motors s) ∅);;
        release_all) s
  else (inr tt, s).
Proof.
  unfold LimitTemperature_update, mbind, M_bind, bind, gets.
  by destruct (truthy (overheat_loop (motors s) ∅)).
Qed.

Lemma LimitSpeed_update_unfold (freq : Q) (s : State) :
  LimitSpeed_update freq s =
  match speed_loop freq (prev_position s) (motors s) ∅ with
  | inl e => (inl e, s)
  | inr d =>
      if truthy d
      then (print "overspeeding motors: " d;; release_all) s
      else (inr tt, s)
  end.
Proof.
  unfold LimitSpeed_update, mbind, M_bind, bind, gets, lift.
  destruct (speed_loop freq (prev_position s) (motors s) ∅) as [e|d]; [done|].
  by destruct (truthy d).
Qed.

(** ** The speed of one motor *)

Lemma resolution_of_known (m : Motor) :
  known_model m ->
  exists r, resolution_of m = inr r /\ (r = 0.088 \/ r = 0.29).
Proof.
  unfold known_model, resolution_of. intros Hk.
  case_bool_decide as H1; [eauto|].
  case_bool_decide as H2; [eauto|]. tauto.
Qed.

Lemma resolution_of_unknown (m : Motor) :
  ~ known_model m ->
  resolution_of m = inl (ValueError "unknown motor model.").
Proof.
  unfold known_model, resolution_of. intros Hk.
  case_bool_decide as H1; [tauto|].
  case_bool_decide as H2; [tauto|]. reflexivity.
Qed.

Lemma motor_speed_unknown (freq : Q) (prev : gmap string (list Q))
    (m : Motor) :
  ~ known_model m ->
  motor_speed freq prev m = inl (ValueError "unknown motor model.").
Proof.
  intros Hk. unfold motor_speed. by rewrite resolution_of_unknown.
Qed.

Lemma truediv_nonzero (x y : Q) : ~ y == 0 -> truediv x y = inr (x / y).
Proof.
  intros Hy. unfold truediv. destruct (Qeq_bool y 0) eqn:E; [|done].
  apply Qeq_bool_iff in E. contradiction.
Qed.

(** What the code computes for a motor of a known model that has an entry:
    the displacement from the stored position, times the resolution,
    divided by the frequency, in radians. *)
Lemma motor_speed_formula (freq : Q) (prev : gmap string (list Q))
    (m : Motor) (p : Q) (history : list Q) (r : Q) :
  resolution_of m = inr r ->
  prev !! name m = Some (p :: history) ->
  ~ freq == 0 ->
  motor_speed freq prev m =
  inr (math_radians ((present_position m - p) * r / freq)).
Proof.
  intros Hr Hp Hf. unfold motor_speed, getitem.
  rewrite Hr, Hp. simpl. by rewrite (truediv_nonzero _ _ Hf).
Qed.

(** ** The loop of [LimitSpeed.update] *)

(** The exception of the first motor that has one is the exception of the
    loop: the motors after it are not looked at, the entries recorded before
    it are lost. *)
Lemma speed_loop_raises (freq : Q) (prev : gmap string (list Q))
    (before after : list Motor) (m : Motor) (e : exn) (d : gmap string Q) :
  Forall (fun m' => exists v, motor_speed freq prev m' = inr v) before ->
  motor_speed freq prev m = inl e ->
  speed_loop freq prev (before ++ m :: after) d = inl e.
Proof.
  intros Hb He. revert d.
  induction Hb as [|m0 rest [v Hv] _ IH]; intros d; simpl.
  - by rewrite He.
  - rewrite Hv. apply IH.
Qed.

(** A motor with an exception anywhere in the list: the loop raises. *)
Lemma speed_loop_raises_somewhere (freq : Q) (prev : gmap string (list Q))
    (ms : list Motor) (m : Motor) (e : exn) (d : gmap string Q) :
  m ∈ ms -> motor_speed freq prev m = inl e ->
  exists e', speed_loop freq prev ms d = inl e'.
Proof.
  revert d. induction ms as [|m0 rest IH]; intros d Hm He.
  - by apply elem_of_nil in Hm.
  - simpl. destruct (motor_speed freq prev m0) as [e0|v0] eqn:E0; [eauto|].
    apply elem_of_cons in Hm as [->|Hm]; [congruence|]. by apply IH.
Qed.

(** A name none of whose motors is too fast keeps the entry it had. *)
Lemma speed_loop_lookup_quiet (freq : Q) (prev : gmap string (list Q))
    (k : string) (ms : list Motor) (d d' : gmap string Q) :
  speed_loop freq prev ms d = inr d' ->
  (forall m v, m ∈ ms -> name m = k -> motor_speed freq prev m = inr v ->
               Qgtb (Qabs v) SPEED_LIMIT = false) ->
  d' !! k = d !! k.
Proof.
  revert d. induction ms as [|m0 rest IH]; intros d Hl Hq; simpl in Hl.
  - congruence.
  - destruct (motor_speed freq prev m0) as [e0|v0] eqn:E0; [done|].
    rewrite (IH _ Hl).
    + destruct (Qgtb (Qabs v0) SPEED_LIMIT) eqn:E; [|done].
      destruct (decide (name m0 = k)) as [Hk|Hk].
      * rewrite (Hq m0 v0) in E; [done| |done|done]. apply elem_of_cons. by left.
      * by rewrite lookup_insert_ne.
    + intros m v Hm. apply Hq. apply elem_of_cons. by right.
Qed.

(** A motor that is too fast is recorded with its speed. *)
Lemma speed_loop_lookup_fast (freq : Q) (prev : gmap string (list Q))
    (ms : list Motor) (d d' : gmap string Q) (m : Motor) (v : Q) :
  NoDup (name <$> ms) -> m ∈ ms ->
  speed_loop freq prev ms d = inr d' ->
  motor_speed freq prev m = inr v ->
  Qgtb (Qabs v) SPEED_LIMIT = true ->
  d' !! name m = Some v.
Proof.
  revert d. induction ms as [|m0 rest IH]; intros d Hnd Hm Hl Hv Hfast.
  - by apply elem_of_nil in Hm.
  - rewrite fmap_cons in Hnd. apply NoDup_cons in Hnd as [Hfresh Hnd].
    simpl in Hl.
    destruct (motor_speed freq prev m0) as [e0|v0] eqn:E0; [done|].
    apply elem_of_cons in Hm as [->|Hm].
    + assert (v0 = v) as -> by congruence. rewrite Hfast in Hl.
      rewrite (speed_loop_lookup_quiet _ _ (name m0) _ _ _ Hl).
      * apply lookup_insert_eq.
      * intros m' v' Hm' Hn. exfalso. apply Hfresh. rewrite <- Hn.
        by apply list_elem_of_fmap_2.
    + by apply (IH _ Hnd Hm Hl).
Qed.

(** [update] has no assignment to [self.prev_position]. *)
Lemma LimitSpeed_update_prev_position (freq : Q) (s : State) :
  prev_position (snd (LimitSpeed_update freq s)) = prev_position s.
Proof.
  rewrite LimitSpeed_update_unfold.
  destruct (speed_loop freq (prev_position s) (motors s) ∅) as [e|d]; [done|].
  by destruct (truthy d).
Qed.

(** ** The dictionary [setup] fills *)

Lemma setup_loop_lookup_other (k : string) (ms : list Motor)
    (d : gmap string (list Q)) :
  k ∉ name <$> ms -> setup_loop ms d !! k = d !! k.
Proof.
  revert d. induction ms as [|m0 rest IH]; intros d Hk; [done|].
  rewrite fmap_cons in Hk. apply not_elem_of_cons in Hk as [Hne Hk].
  simpl. rewrite (IH _ Hk). by rewrite lookup_insert_ne.
Qed.

(** After [setup] a motor's name is bound to the one-element list of the
    position it had. *)
Lemma setup_loop_lookup (ms : list Motor) (d : gmap string (list Q))
    (m : Motor) :
  NoDup (name <$> ms) -> m ∈ ms ->
  setup_loop ms d !! name m = Some [present_position m].
Proof.
  revert d. induction ms as [|m0 rest IH]; intros d Hnd Hm.
  - by apply elem_of_nil in Hm.
  - rewrite fmap_cons in Hnd. apply NoDup_cons in Hnd as [Hfresh Hnd].
    simpl. apply elem_of_cons in Hm as [->|Hm]; [|by apply IH].
    rewrite (setup_loop_lookup_other _ _ _ Hfresh). apply lookup_insert_eq.
Qed.

(** ** What an [update] may write *)

Lemma only_compliant_written_refl (s : State) : only_compliant_written s s.
Proof.
  split; [|done]. apply Forall2_same_length_lookup. split; [done|].
  intros i m m' H1 H2. assert (m' = m) as -> by congruence. by repeat split.
Qed.

Lemma only_compliant_written_release (label : string) (d : gmap string Q)
    (s : State) :
  only_compliant_written s (snd ((print label d;; release_all) s)).
Proof.
  split; [|done]. simpl. apply Forall2_fmap_r, Forall2_same_length_lookup.
  split; [done|].
  intros i m m' H1 H2. assert (m' = m) as -> by congruence. by repeat split.
Qed.


(** ** The first tick *)

(** A motor that is where [setup] saw it has a speed of zero. *)
Lemma motor_speed_unmoved (freq : Q) (s : State) (m m' : Motor) :
  NoDup (name <$> motors s) -> m ∈ motors s ->
  name m' = name m -> present_position m' == present_position m ->
  known_model m' -> ~ freq == 0 ->
  exists v,
    motor_speed freq (prev_position (snd (LimitSpeed_setup s))) m' = inr v /\
    v == 0 /\ Qgtb (Qabs v) SPEED_LIMIT = false.
Proof.
  intros Hnd Hm Hname Hpos Hk Hf.
  destruct (resolution_of_known m' Hk) as (r & Hr & _).
  assert (Hp : prev_position (snd (LimitSpeed_setup s)) !! name m'
               = Some [present_position m]).
  { rewrite Hname. simpl. by apply setup_loop_lookup. }
  rewrite (motor_speed_formula _ _ _ _ _ _ Hr Hp Hf).
  assert (Hz : math_radians ((present_position m' - present_position m)
                             * r / freq) == 0).
  { unfold math_radians. rewrite Hpos. field. exact Hf. }
  eexists. split; [reflexivity|]. split; [exact Hz|].
  rewrite Hz. reflexivity.
Qed.




(** With unique names, a tick that ends its first loop has recorded exactly
    the motors whose speed is above [SPEED_LIMIT] in absolute value, each
    with its speed. *)
Lemma speed_loop_spec (freq : Q) (prev : gmap string (list Q))
    (ms : list Motor) (d : gmap string Q) (m : Motor) (v : Q) :
  NoDup (name <$> ms) -> m ∈ ms ->
  speed_loop freq prev ms ∅ = inr d ->
  motor_speed freq prev m = inr v ->
  d !! name m = if Qgtb (Qabs v) SPEED_LIMIT then Some v else None.
Proof.
  intros Hnd Hm Hd Hv. destruct (Qgtb (Qabs v) SPEED_LIMIT) eqn:E.
  - by apply (speed_loop_lookup_fast freq prev ms ∅).
  - rewrite (speed_loop_lookup_quiet _ _ (name m) _ _ _ Hd);
      [apply lookup_empty|].
    intros m' v' Hm' Hn Hv'.
    rewrite (unique_name ms m' m Hnd Hm' Hm Hn) in Hv'. congruence.
Qed.

(** * The claims *)

(** ** Overload and overheat verdicts *)

(** C2. For every motor of a robot (names are unique), the dictionary of
    overloaded motors has an entry for the motor if and only if the motor is
    not compliant and the absolute value of its load is above [LOAD_LIMIT];
    the entry is the load.  A compliant motor has no entry whatever its
    load, and a load whose absolute value equals [LOAD_LIMIT] has none. *)
Theorem overload_verdict_iff (ms : list Motor) (m : Motor) :
  NoDup (name <$> ms) -> m ∈ ms ->
  let verdict := overload_loop ms ∅ in
  (is_Some (verdict !! name m) <->
     compliant m = false /\ LOAD_LIMIT < Qabs (present_load m)) /\
  (is_Some (verdict !! name m) ->
     verdict !! name m = Some (present_load m)) /\
  (compliant m = true -> verdict !! name m = None) /\
  (Qabs (present_load m) == LOAD_LIMIT -> verdict !! name m = None).
Proof.
  intros Hnd Hm verdict. subst verdict.
  rewrite overload_loop_record, (record_loop_spec _ _ ms m Hnd Hm).
  pose proof (overloaded_spec m) as Hspec.
  destruct (overloaded m) eqn:E.
  - destruct Hspec as [[Hc Hl] _]; [done|].
    split; [|split; [|split]].
    + split; eauto.
    + done.
    + intros Ht. congruence.
    + intros Heq. rewrite Heq in Hl. by apply Qlt_irrefl in Hl.
  - split; [|split; [|split]]; try done.
    split; [by intros [x Hx]|]. intros H. apply Hspec in H. done.
Qed.

Lemma overload_verdict_iff_witness :
  let ms := [motor "m1" "MX-28" 75 0 30; motor "m2" "AX-12" (-60) 0 30] in
  overload_loop ms ∅ !! "m1" = Some 75 /\
  (is_Some (overload_loop ms ∅ !! "m1") <->
     false = false /\ LOAD_LIMIT < Qabs 75) /\
  overload_loop ms ∅ !! "m2" = None.
Proof.
  intros ms.
  assert (Hnd : NoDup (name <$> ms)) by (apply (bool_decide_unpack _); by vm_compute).
  assert (H1 : motor "m1" "MX-28" 75 0 30 ∈ ms) by (apply elem_of_cons; by left).
  assert (H2 : motor "m2" "AX-12" (-60) 0 30 ∈ ms)
    by (apply elem_of_cons; right; apply elem_of_cons; by left).
  destruct (overload_verdict_iff ms _ Hnd H1) as (Hiff & Hval & _ & _).
  destruct (overload_verdict_iff ms _ Hnd H2) as (_ & _ & _ & Heq).
  split; [|split].
  - apply Hval, Hiff. split; reflexivity.
  - exact Hiff.
  - apply Heq. reflexivity.
Defined.

(** C3. For every motor of a robot (names are unique), the dictionary of
    overheating motors has an entry for the motor if and only if its
    temperature is strictly above [TEMPERATURE_LIMIT]; the entry is the
    temperature.  No absolute value is taken: a temperature equal to the
    limit, or anywhere below it, has no entry. *)
Theorem overheat_verdict_iff (ms : list Motor) (m : Motor) :
  NoDup (name <$> ms) -> m ∈ ms ->
  let verdict := overheat_loop ms ∅ in
  (is_Some (verdict !! name m) <->
     TEMPERATURE_LIMIT < present_temperature m) /\
  (is_Some (verdict !! name m) ->
     verdict !! name m = Some (present_temperature m)) /\
  (present_temperature m == TEMPERATURE_LIMIT -> verdict !! name m = None) /\
  (present_temperature m <= TEMPERATURE_LIMIT -> verdict !! name m = None).
Proof.
  intros Hnd Hm verdict. subst verdict.
  rewrite overheat_loop_record, (record_loop_spec _ _ ms m Hnd Hm).
  pose proof (overheating_spec m) as Hspec.
  destruct (overheating m) eqn:E.
  - destruct Hspec as [Hl _]. specialize (Hl eq_refl).
    split; [|split; [|split]].
    + split; eauto.
    + done.
    + intros Heq. rewrite Heq in Hl. by apply Qlt_irrefl in Hl.
    + intros Hle. exfalso. exact (Qlt_not_le _ _ Hl Hle).
  - split; [|split; [|split]]; try done.
    split; [by intros [x Hx]|]. intros H. apply Hspec in H. done.
Qed.

Lemma overheat_verdict_iff_witness :
  let ms := [motor "m1" "MX-28" 0 0 61; motor "m2" "AX-12" 0 0 60;
             motor "m3" "AX-12" 0 0 (-100)] in
  overheat_loop ms ∅ !! "m1" = Some 61 /\
  overheat_loop ms ∅ !! "m2" = None /\
  overheat_loop ms ∅ !! "m3" = None.
Proof.
  intros ms.
  assert (Hnd : NoDup (name <$> ms)) by (apply (bool_decide_unpack _); by vm_compute).
  assert (H1 : motor "m1" "MX-28" 0 0 61 ∈ ms) by (apply elem_of_cons; by left).
  assert (H2 : motor "m2" "AX-12" 0 0 60 ∈ ms)
    by (apply elem_of_cons; right; apply elem_of_cons; by left).
  assert (H3 : motor "m3" "AX-12" 0 0 (-100) ∈ ms)
    by (do 2 (apply elem_of_cons; right); apply elem_of_cons; by left).
  destruct (overheat_verdict_iff ms _ Hnd H1) as (Hiff & Hval & _ & _).
  destruct (overheat_verdict_iff ms _ Hnd H2) as (_ & _ & Heq & _).
  destruct (overheat_verdict_iff ms _ Hnd H3) as (_ & _ & _ & Hle).
  split; [|split].
  - apply Hval, Hiff. reflexivity.
  - apply Heq. reflexivity.
  - apply Hle. discriminate.
Defined.

(** ** Release *)

(** C1. In each of the three loops, a tick whose dictionary of offending
    motors is not empty prints one line and runs the release loop once:
    every motor of the robot, offending or not, has [compliant] set to
    [True], by one assignment per motor.  For the speed loop the dictionary
    is the one the first loop ends with (no exception was raised). *)
Theorem release_all_on_violation :
  (forall s, overload_loop (motors s) ∅ ≠ ∅ ->
     exists s', LimitOverLoad_update s = (inr tt, s') /\
       released_once "overloaded motors: " (overload_loop (motors s) ∅) s s') /\
  (forall freq s d,
     speed_loop freq (prev_position s) (motors s) ∅ = inr d -> d ≠ ∅ ->
     exists s', LimitSpeed_update freq s = (inr tt, s') /\
       released_once "overspeeding motors: " d s s') /\
  (forall s, overheat_loop (motors s) ∅ ≠ ∅ ->
     exists s', LimitTemperature_update s = (inr tt, s') /\
       released_once "overheated motors: " (overheat_loop (motors s) ∅) s s').
Proof.
  split; [|split].
  - intros s Hd. rewrite LimitOverLoad_update_unfold.
    apply truthy_spec in Hd. rewrite Hd. apply print_release.
  - intros freq s d Hl Hd. rewrite LimitSpeed_update_unfold, Hl.
    apply truthy_spec in Hd. rewrite Hd. apply print_release.
  - intros s Hd. rewrite LimitTemperature_update_unfold.
    apply truthy_spec in Hd. rewrite Hd. apply print_release.
Qed.

Lemma release_all_on_violation_witness :
  (exists s', LimitOverLoad_update overloaded_robot = (inr tt, s') /\
     Forall (fun m => compliant m = true) (motors s')) /\
  (exists s', LimitSpeed_update slow_loop_freq fast_robot = (inr tt, s') /\
     Forall (fun m => compliant m = true) (motors s')) /\
  (exists s', LimitTemperature_update overheated_robot = (inr tt, s') /\
     Forall (fun m => compliant m = true) (motors s')).
Proof.
  destruct release_all_on_violation as (Hload & Hspeed & Hheat).
  split; [|split].
  - destruct (Hload overloaded_robot) as (s' & Hs' & _ & Hall & _).
    + apply truthy_spec. by vm_compute.
    + by exists s'.
  - assert (Hd : exists d,
        speed_loop slow_loop_freq (prev_position fast_robot)
          (motors fast_robot) ∅ = inr d /\ truthy d = true)
      by (eexists; split; vm_compute; reflexivity).
    destruct Hd as (d & Hl & Hd). apply truthy_spec in Hd.
    destruct (Hspeed _ _ _ Hl Hd) as (s' & Hs' & _ & Hall & _).
    by exists s'.
  - destruct (Hheat overheated_robot) as (s' & Hs' & _ & Hall & _).
    + apply truthy_spec. by vm_compute.
    + by exists s'.
Defined.

(** C9. A motor of an unknown model anywhere in the list makes the update
    of the speed loop raise in its first loop, before the test and the
    release loop: whatever the motors before it did, nothing is printed and
    no motor is released; the state is the one the tick started from. *)
Theorem unknown_model_raises_before_release (freq : Q) (s : State)
    (m : Motor) :
  m ∈ motors s -> ~ known_model m ->
  exists e, LimitSpeed_update freq s = (inl e, s).
Proof.
  intros Hm Hk.
  destruct (speed_loop_raises_somewhere freq (prev_position s) (motors s) m
              _ ∅ Hm (motor_speed_unknown _ _ _ Hk)) as [e He].
  exists e. by rewrite LimitSpeed_update_unfold, He.
Qed.

Lemma unknown_model_raises_before_release_witness :
  (exists v, motor_speed slow_loop_freq (prev_position misconfigured_robot)
               (motor "m1" "AX-12" 0 150 30) = inr v /\
             Qgtb (Qabs v) SPEED_LIMIT = true) /\
  exists e, LimitSpeed_update slow_loop_freq misconfigured_robot
            = (inl e, misconfigured_robot).
Proof.
  split.
  - eexists. split; vm_compute; reflexivity.
  - apply (unknown_model_raises_before_release slow_loop_freq
             misconfigured_robot (motor "m3" "XYZ-99" 0 0 30)).
    + apply elem_of_cons. right. apply elem_of_cons. by left.
    + apply (bool_decide_unpack _). by vm_compute.
Defined.

(** C10. In each of the three loops, a tick whose dictionary of offending
    motors is empty returns with the state it started from: no attribute is
    written and nothing is printed.  On any state, an update writes nothing
    but [compliant] attributes: names, models, loads, positions and
    temperatures, and the stored positions, are those the tick started
    with. *)
Theorem quiet_tick_is_a_no_op :
  (forall s, overload_loop (motors s) ∅ = ∅ ->
     LimitOverLoad_update s = (inr tt, s)) /\
  (forall freq s, speed_loop freq (prev_position s) (motors s) ∅ = inr ∅ ->
     LimitSpeed_update freq s = (inr tt, s)) /\
  (forall s, overheat_loop (motors s) ∅ = ∅ ->
     LimitTemperature_update s = (inr tt, s)) /\
  (forall s, only_compliant_written s (snd (LimitOverLoad_update s))) /\
  (forall freq s, only_compliant_written s (snd (LimitSpeed_update freq s))) /\
  (forall s, only_compliant_written s (snd (LimitTemperature_update s))).
Proof.
  repeat apply conj.
  - intros s Hd. rewrite LimitOverLoad_update_unfold.
    apply truthy_empty in Hd. by rewrite Hd.
  - intros freq s Hd. rewrite LimitSpeed_update_unfold, Hd. done.
  - intros s Hd. rewrite LimitTemperature_update_unfold.
    apply truthy_empty in Hd. by rewrite Hd.
  - intros s. rewrite LimitOverLoad_update_unfold.
    destruct (truthy _);
      [apply only_compliant_written_release|apply only_compliant_written_refl].
  - intros freq s. rewrite LimitSpeed_update_unfold.
    destruct (speed_loop _ _ _ _) as [e|d];
      [apply only_compliant_written_refl|].
    destruct (truthy _);
      [apply only_compliant_written_release|apply only_compliant_written_refl].
  - intros s. rewrite LimitTemperature_update_unfold.
    destruct (truthy _);
      [apply only_compliant_written_release|apply only_compliant_written_refl].
Qed.

Lemma quiet_tick_is_a_no_op_witness :
  LimitOverLoad_update quiet_robot = (inr tt, quiet_robot) /\
  LimitSpeed_update 50 quiet_robot = (inr tt, quiet_robot) /\
  LimitTemperature_update quiet_robot = (inr tt, quiet_robot).
Proof.
  destruct quiet_tick_is_a_no_op as (Hload & Hspeed & Hheat & _).
  split; [|split].
  - apply Hload. by vm_compute.
  - apply Hspeed. by vm_compute.
  - apply Hheat. by vm_compute.
Defined.

(** ** The speed rule *)

(** C4. At 50 Hz, for an MX-28 that has turned by 180 degrees, the speed
    the code computes is [radians(180 * 0.088 / 50)]: the displacement times
    the resolution is divided by the frequency.  It is not
    [radians(180 * 0.088 * 50)], a speed above [SPEED_LIMIT]: the code
    records nothing and releases nothing. *)
Theorem speed_is_divided_by_frequency :
  (exists v,
     motor_speed 50 (prev_position turning_robot)
       (motor "m1" "MX-28" 0 90 30) = inr v /\
     v == math_radians (180 * 0.088 / 50) /\
     ~ v == math_radians (180 * 0.088 * 50)) /\
  Qgtb (Qabs (math_radians (180 * 0.088 * 50))) SPEED_LIMIT = true /\
  LimitSpeed_update 50 turning_robot = (inr tt, turning_robot).
Proof.
  split; [|split].
  - eexists. split; [vm_compute; reflexivity|]. split.
    + vm_compute. reflexivity.
    + intros H. vm_compute in H. discriminate H.
  - vm_compute. reflexivity.
  - vm_compute. reflexivity.
Qed.

(** C5. A tick of the speed loop on a motor that has moved from 10 to 20
    degrees returns normally and leaves the stored position of the motor at
    [[10]], the position read by [setup]; at the next tick a motor that
    stays at 20 degrees is given a speed that is not zero. *)
Theorem update_keeps_the_setup_position :
  let s1 := snd (LimitSpeed_update 50 moved_robot) in
  fst (LimitSpeed_update 50 moved_robot) = inr tt /\
  prev_position s1 !! "m2" = Some [10] /\
  prev_position s1 !! "m2" <> Some [20] /\
  exists v, motor_speed 50 (prev_position s1) (motor "m2" "MX-28" 0 20 30)
            = inr v /\ ~ v == 0.
Proof.
  intros s1. subst s1. rewrite LimitSpeed_update_prev_position.
  split; [by vm_compute|]. split; [by vm_compute|]. split.
  - intros H. vm_compute in H. discriminate H.
  - eexists. split; [vm_compute; reflexivity|].
    intros H. vm_compute in H. discriminate H.
Qed.




(** ** Unknown models *)

(** C7, as stated, fails: no reading of the exception gives back the name
    and the model of the motor that caused it, since two motors of different
    names and unknown models raise the same exception. *)
Lemma unknown_model_error_names_no_motor :
  ~ (exists describe : exn -> string * string,
       forall freq prev m e,
         ~ known_model m -> motor_speed freq prev m = inl e ->
         describe e = (name m, model m)).
Proof.
  intros [describe H].
  assert (H3 : ~ known_model (motor "m3" "XYZ-99" 0 0 30))
    by (apply (bool_decide_unpack _); by vm_compute).
  assert (H4 : ~ known_model (motor "m4" "RX-24" 0 0 30))
    by (apply (bool_decide_unpack _); by vm_compute).
  pose proof (H 50 ∅ _ _ H3 (motor_speed_unknown 50 ∅ _ H3)) as E3.
  pose proof (H 50 ∅ _ _ H4 (motor_speed_unknown 50 ∅ _ H4)) as E4.
  rewrite E3 in E4. discriminate E4.
Qed.

(** C7, amended. When the loop of the speed rule reaches a motor of an
    unknown model (the motors before it in the list have a speed), the
    update raises [ValueError] with the fixed message
    "unknown motor model.", whatever the motor and its model, and the state
    is the one the tick started from. *)
Theorem unknown_model_raises_fixed_message (freq : Q) (s : State)
    (before after : list Motor) (m : Motor) :
  motors s = before ++ m :: after ->
  Forall (fun m' => exists v, motor_speed freq (prev_position s) m' = inr v)
         before ->
  ~ known_model m ->
  LimitSpeed_update freq s = (inl (ValueError "unknown motor model."), s).
Proof.
  intros Hms Hb Hk. rewrite LimitSpeed_update_unfold, Hms.
  by rewrite (speed_loop_raises _ _ _ _ _ _ _ Hb (motor_speed_unknown _ _ _ Hk)).
Qed.

Lemma unknown_model_raises_fixed_message_witness :
  LimitSpeed_update slow_loop_freq misconfigured_robot
  = (inl (ValueError "unknown motor model."), misconfigured_robot).
Proof.
  apply (unknown_model_raises_fixed_message slow_loop_freq
           misconfigured_robot [motor "m1" "AX-12" 0 150 30] []
           (motor "m3" "XYZ-99" 0 0 30)).
  - reflexivity.
  - apply Forall_cons. split; [|apply Forall_nil_2].
    eexists. vm_compute. reflexivity.
  - apply (bool_decide_unpack _). by vm_compute.
Defined.

(** C8, as stated, fails: with a motor of an unknown model in the list, a
    motor of a known model that is too fast is not reported: no line with
    its speed is printed that tick. *)
Lemma unknown_model_stops_other_motors :
  ~ (forall freq s m3 m v,
       m3 ∈ motors s -> ~ known_model m3 ->
       m ∈ motors s -> known_model m ->
       motor_speed freq (prev_position s) m = inr v ->
       Qgtb (Qabs v) SPEED_LIMIT = true ->
       exists d, d !! name m = Some v /\
         PrintLine "overspeeding motors: " d
           ∈ stdout (snd (LimitSpeed_update freq s))).
Proof.
  intros H.
  destruct (H slow_loop_freq misconfigured_robot
              (motor "m3" "XYZ-99" 0 0 30) (motor "m1" "AX-12" 0 150 30)
              (math_radians ((150 - -150) * 0.29 / slow_loop_freq)))
    as (d & _ & Hprint).
  - apply elem_of_cons. right. apply elem_of_cons. by left.
  - apply (bool_decide_unpack _). by vm_compute.
  - apply elem_of_cons. by left.
  - apply (bool_decide_unpack _). by vm_compute.
  - reflexivity.
  - by vm_compute.
  - vm_compute in Hprint. by apply elem_of_nil in Hprint.
Qed.

(** C8, amended. When the loop of the speed rule reaches a motor of an
    unknown model, the update raises [ValueError] and the whole tick ends
    there: nothing is recorded or printed for any motor, no motor is
    released, and the motors after it in the list are not looked at (any
    other readings in their place give the same exception). *)
Theorem unknown_model_fails_the_whole_tick (freq : Q) (s : State)
    (before after : list Motor) (m3 : Motor) :
  motors s = before ++ m3 :: after ->
  Forall (fun m' => exists v, motor_speed freq (prev_position s) m' = inr v)
         before ->
  ~ known_model m3 ->
  fst (LimitSpeed_update freq s) = inl (ValueError "unknown motor model.") /\
  snd (LimitSpeed_update freq s) = s /\
  forall after',
    LimitSpeed_update freq (refresh (before ++ m3 :: after') s)
    = (inl (ValueError "unknown motor model."),
       refresh (before ++ m3 :: after') s).
Proof.
  intros Hms Hb Hk.
  pose proof (motor_speed_unknown freq (prev_position s) _ Hk) as He.
  rewrite LimitSpeed_update_unfold, Hms.
  rewrite (speed_loop_raises _ _ _ _ _ _ _ Hb He).
  split; [done|]. split; [done|]. intros after'.
  rewrite LimitSpeed_update_unfold. simpl.
  by rewrite (speed_loop_raises _ _ _ _ _ _ _ Hb He).
Qed.

Lemma unknown_model_fails_the_whole_tick_witness :
  fst (LimitSpeed_update slow_loop_freq misconfigured_robot)
  = inl (ValueError "unknown motor model.") /\
  snd (LimitSpeed_update slow_loop_freq misconfigured_robot)
  = misconfigured_robot.
Proof.
  destruct (unknown_model_fails_the_whole_tick slow_loop_freq
              misconfigured_robot [motor "m1" "AX-12" 0 150 30] []
              (motor "m3" "XYZ-99" 0 0 30)) as (Hfst & Hsnd & _).
  - reflexivity.
  - apply Forall_cons. split; [|apply Forall_nil_2].
    eexists. vm_compute. reflexivity.
  - apply (bool_decide_unpack _). by vm_compute.
  - by split.
Defined.

(** * Further properties *)

(** ** What the dictionaries hold, without unique names *)

Section RecordingAnyNames.
Variable trip : Motor -> bool.
Variable reading : Motor -> Q.

(** An entry is never removed. *)
Lemma record_loop_keeps (k : string) (ms : list Motor) (d : gmap string Q) :
  is_Some (d !! k) -> is_Some (record_loop trip reading ms d !! k).
Proof.
  revert d. induction ms as [|m0 rest IH]; intros d Hk; [done|].
  simpl. apply IH. destruct (trip m0); [|done].
  destruct (decide (name m0 = k)) as [<-|Hne].
  - rewrite lookup_insert_eq. eauto.
  - by rewrite lookup_insert_ne.
Qed.

(** The name of a motor that trips has an entry. *)
Lemma record_loop_records (ms : list Motor) (d : gmap string Q) (m : Motor) :
  m ∈ ms -> trip m = true ->
  is_Some (record_loop trip reading ms d !! name m).
Proof.
  revert d. induction ms as [|m0 rest IH]; intros d Hm Ht.
  - by apply elem_of_nil in Hm.
  - simpl. apply elem_of_cons in Hm as [->|Hm]; [|by apply IH].
    rewrite Ht. apply record_loop_keeps. rewrite lookup_insert_eq. eauto.
Qed.

(** An entry that was not there before is the reading of a motor of that
    name that trips. *)
Lemma record_loop_sound (k : string) (v : Q) (ms : list Motor)
    (d : gmap string Q) :
  record_loop trip reading ms d !! k = Some v ->
  d !! k = Some v \/
  exists m, m ∈ ms /\ name m = k /\ trip m = true /\ reading m = v.
Proof.
  revert d. induction ms as [|m0 rest IH]; intros d Hk; [by left|].
  simpl in Hk. destruct (IH _ Hk) as [Hd|(m & Hm & Hn & Ht & Hr)].
  - destruct (trip m0) eqn:E; [|by left].
    destruct (decide (name m0 = k)) as [Hn|Hne].
    + rewrite <- Hn, lookup_insert_eq in Hd. right. exists m0.
      split; [apply elem_of_cons; by left|]. split; [done|].
      split; [done|congruence].
    + rewrite lookup_insert_ne in Hd by done. by left.
  - right. exists m. split; [apply elem_of_cons; by right|]. done.
Qed.

(** The dictionary is not empty exactly when a motor trips. *)
Lemma record_loop_nonempty (ms : list Motor) :
  record_loop trip reading ms ∅ ≠ ∅ <->
  exists m, m ∈ ms /\ trip m = true.
Proof.
  split.
  - intros Hne. apply map_choose in Hne as (k & v & Hk).
    apply record_loop_sound in Hk as [Hk|(m & Hm & _ & Ht & _)].
    + by rewrite lookup_empty in Hk.
    + by exists m.
  - intros (m & Hm & Ht) He.
    destruct (record_loop_records ms ∅ m Hm Ht) as [v Hv].
    by rewrite He, lookup_empty in Hv.
Qed.
End RecordingAnyNames.

Lemma overloaded_false (m : Motor) :
  overloaded m = false <->
  compliant m = true \/ Qabs (present_load m) <= LOAD_LIMIT.
Proof.
  unfold overloaded. rewrite andb_false_iff, negb_false_iff, Qgtb_le. tauto.
Qed.

Lemma overheating_false (m : Motor) :
  overheating m = false <-> present_temperature m <= TEMPERATURE_LIMIT.
Proof. apply Qgtb_le. Qed.

(** ** Released motors *)

Lemma make_compliant_idemp (ms : list Motor) :
  make_compliant <$> (make_compliant <$> ms) = make_compliant <$> ms.
Proof. rewrite <- list_fmap_compose. by apply list_fmap_ext. Qed.

Lemma name_make_compliant (ms : list Motor) :
  (fun m => SetCompliant (name m) true) <$> (make_compliant <$> ms)
  = (fun m => SetCompliant (name m) true) <$> ms.
Proof. rewrite <- list_fmap_compose. by apply list_fmap_ext. Qed.

(** A compliant motor is never overloaded. *)
Lemma overload_loop_released (ms : list Motor) :
  Forall (fun m => compliant m = true) ms -> overload_loop ms ∅ = ∅.
Proof.
  intros Hall. apply overload_loop_quiet. intros m Hm.
  apply overloaded_false. left. by apply (proj1 (Forall_forall _ _) Hall).
Qed.

(** The temperature test does not look at [compliant]. *)
Lemma overheat_loop_make_compliant (ms : list Motor) (d : gmap string Q) :
  overheat_loop (make_compliant <$> ms) d = overheat_loop ms d.
Proof. revert d. induction ms as [|m rest IH]; intros d; simpl; auto. Qed.

Lemma released_lookup (ms : list Motor) (i : nat) (m : Motor) :
  ms !! i = Some m ->
  exists m', (make_compliant <$> ms) !! i = Some m' /\ compliant m' = true.
Proof.
  intros Hi. exists (make_compliant m). by rewrite list_lookup_fmap, Hi.
Qed.

(** ** The overload and overheat loops, end to end *)

(** X1. The update of the overload loop releases the whole robot when some
    motor is not compliant and has a load above [LOAD_LIMIT] in absolute
    value, and does nothing at all when no motor is so; the names of the
    motors need not be unique. *)
Theorem overload_update_releases_iff (s : State) :
  ((exists m, m ∈ motors s /\ compliant m = false /\
              LOAD_LIMIT < Qabs (present_load m)) ->
   exists s', LimitOverLoad_update s = (inr tt, s') /\
     released_once "overloaded motors: " (overload_loop (motors s) ∅) s s') /\
  ((forall m, m ∈ motors s ->
      compliant m = true \/ Qabs (present_load m) <= LOAD_LIMIT) ->
   LimitOverLoad_update s = (inr tt, s)).
Proof.
  rewrite LimitOverLoad_update_unfold. split.
  - intros (m & Hm & Hc & Hl).
    assert (Ht : truthy (overload_loop (motors s) ∅) = true).
    { apply truthy_spec. rewrite overload_loop_record.
      apply record_loop_nonempty. exists m. split; [done|].
      by apply overloaded_spec. }
    rewrite Ht. apply print_release.
  - intros Hq. rewrite overload_loop_quiet; [done|].
    intros m Hm. apply overloaded_false. by apply Hq.
Qed.

Lemma overload_update_releases_iff_witness :
  (exists s', LimitOverLoad_update overloaded_robot = (inr tt, s') /\
     Forall (fun m => compliant m = true) (motors s')) /\
  LimitOverLoad_update quiet_robot = (inr tt, quiet_robot).
Proof.
  split.
  - destruct (proj1 (overload_update_releases_iff overloaded_robot))
      as (s' & Hs' & _ & Hall & _); [|by exists s'].
    exists (motor "m1" "MX-28" 75 0 30).
    split; [apply elem_of_cons; by left|]. split; reflexivity.
  - apply (proj2 (overload_update_releases_iff quiet_robot)).
    intros m Hm. right.
    apply elem_of_cons in Hm as [->|Hm]; [discriminate|].
    apply elem_of_cons in Hm as [->|Hm]; [discriminate|].
    by apply elem_of_nil in Hm.
Defined.

(** X2. The update of the overheat loop releases the whole robot when some
    motor, compliant or not, has a temperature above [TEMPERATURE_LIMIT],
    and does nothing at all when no motor has; the names of the motors need
    not be unique. *)
Theorem overheat_update_releases_iff (s : State) :
  ((exists m, m ∈ motors s /\
              TEMPERATURE_LIMIT < present_temperature m) ->
   exists s', LimitTemperature_update s = (inr tt, s') /\
     released_once "overheated motors: " (overheat_loop (motors s) ∅) s s') /\
  ((forall m, m ∈ motors s -> present_temperature m <= TEMPERATURE_LIMIT) ->
   LimitTemperature_update s = (inr tt, s)).
Proof.
  rewrite LimitTemperature_update_unfold. split.
  - intros (m & Hm & Hl).
    assert (Ht : truthy (overheat_loop (motors s) ∅) = true).
    { apply truthy_spec. rewrite overheat_loop_record.
      apply record_loop_nonempty. exists m. split; [done|].
      by apply overheating_spec. }
    rewrite Ht. apply print_release.
  - intros Hq. rewrite overheat_loop_quiet; [done|].
    intros m Hm. apply overheating_false. by apply Hq.
Qed.

Lemma overheat_update_releases_iff_witness :
  (exists s', LimitTemperature_update overheated_robot = (inr tt, s') /\
     Forall (fun m => compliant m = true) (motors s')) /\
  LimitTemperature_update quiet_robot = (inr tt, quiet_robot).
Proof.
  split.
  - destruct (proj1 (overheat_update_releases_iff overheated_robot))
      as (s' & Hs' & _ & Hall & _); [|by exists s'].
    exists (motor "m1" "MX-28" 0 0 61).
    split; [apply elem_of_cons; by left|]. reflexivity.
  - apply (proj2 (overheat_update_releases_iff quiet_robot)).
    intros m Hm.
    apply elem_of_cons in Hm as [->|Hm]; [discriminate|].
    apply elem_of_cons in Hm as [->|Hm]; [discriminate|].
    by apply elem_of_nil in Hm.
Defined.

(** X3. Whatever the names, every entry of the dictionary of overloaded
    motors is the load of a motor of that name that is not compliant and
    above the limit, and every entry of the dictionary of overheating
    motors is the temperature of a motor of that name above the limit. *)
Theorem verdict_entries_are_readings (ms : list Motor) (k : string) (v : Q) :
  (overload_loop ms ∅ !! k = Some v ->
   exists m, m ∈ ms /\ name m = k /\ present_load m = v /\
             compliant m = false /\ LOAD_LIMIT < Qabs v) /\
  (overheat_loop ms ∅ !! k = Some v ->
   exists m, m ∈ ms /\ name m = k /\ present_temperature m = v /\
             TEMPERATURE_LIMIT < v).
Proof.
  split; intros Hk.
  - rewrite overload_loop_record in Hk.
    apply record_loop_sound in Hk as [Hk|(m & Hm & Hn & Ht & Hr)];
      [by rewrite lookup_empty in Hk|].
    apply overloaded_spec in Ht as [Hc Hl]. exists m. subst v. done.
  - rewrite overheat_loop_record in Hk.
    apply record_loop_sound in Hk as [Hk|(m & Hm & Hn & Ht & Hr)];
      [by rewrite lookup_empty in Hk|].
    apply overheating_spec in Ht. exists m. subst v. done.
Qed.

Lemma verdict_entries_are_readings_witness :
  (exists m, m ∈ motors overloaded_robot /\ name m = "m1" /\
             present_load m = 75 /\ compliant m = false /\
             LOAD_LIMIT < Qabs 75) /\
  (exists m, m ∈ motors overheated_robot /\ name m = "m1" /\
             present_temperature m = 61 /\ TEMPERATURE_LIMIT < 61).
Proof.
  split.
  - apply (proj1 (verdict_entries_are_readings
                    (motors overloaded_robot) "m1" 75)).
    by vm_compute.
  - apply (proj2 (verdict_entries_are_readings
                    (motors overheated_robot) "m1" 61)).
    by vm_compute.
Defined.

(** ** Ticks after a release *)

(** X4. No update sets [compliant] back to [False]: a motor that is
    compliant before a tick of any of the three loops is compliant after
    it, at the same place in the list. *)
Theorem update_never_engages (freq : Q) (s : State) (i : nat) (m : Motor) :
  motors s !! i = Some m -> compliant m = true ->
  (exists m', motors (snd (LimitOverLoad_update s)) !! i = Some m' /\
              compliant m' = true) /\
  (exists m', motors (snd (LimitSpeed_update freq s)) !! i = Some m' /\
              compliant m' = true) /\
  (exists m', motors (snd (LimitTemperature_update s)) !! i = Some m' /\
              compliant m' = true).
Proof.
  intros Hi Hc. split; [|split].
  - rewrite LimitOverLoad_update_unfold.
    destruct (truthy _); [by apply (released_lookup _ _ m)|by exists m].
  - rewrite LimitSpeed_update_unfold.
    destruct (speed_loop _ _ _ _) as [e|d]; [by exists m|].
    destruct (truthy _); [by apply (released_lookup _ _ m)|by exists m].
  - rewrite LimitTemperature_update_unfold.
    destruct (truthy _); [by apply (released_lookup _ _ m)|by exists m].
Qed.

Lemma update_never_engages_witness :
  exists m', motors (snd (LimitTemperature_update released_robot)) !! 1%nat
             = Some m' /\ compliant m' = true.
Proof.
  apply (update_never_engages 50 released_robot 1
           (mkMotor "m2" "AX-12" (-90) 0 30 true)); reflexivity.
Defined.

(** X5. On a robot whose motors are all compliant the update of the
    overload loop does nothing, whatever the loads: nothing is printed and
    no attribute is written. *)
Theorem overload_update_quiet_when_released (s : State) :
  Forall (fun m => compliant m = true) (motors s) ->
  LimitOverLoad_update s = (inr tt, s).
Proof.
  intros Hall. rewrite LimitOverLoad_update_unfold.
  by rewrite (overload_loop_released _ Hall).
Qed.

Lemma overload_update_quiet_when_released_witness :
  LimitOverLoad_update released_robot = (inr tt, released_robot).
Proof.
  apply overload_update_quiet_when_released.
  repeat (apply Forall_cons; split; [reflexivity|]). apply Forall_nil_2.
Defined.

(** X6. The update of the overload loop is idempotent: run on the state a
    first run has left, with the same readings, it changes nothing and
    prints nothing, whether the first run has released the robot or not. *)
Theorem overload_update_idempotent (s : State) :
  LimitOverLoad_update (snd (LimitOverLoad_update s))
  = (inr tt, snd (LimitOverLoad_update s)).
Proof.
  rewrite (LimitOverLoad_update_unfold s).
  destruct (truthy (overload_loop (motors s) ∅)) eqn:E.
  - rewrite LimitOverLoad_update_unfold. simpl.
    rewrite overload_loop_released; [done|].
    apply Forall_fmap, Forall_true. by intros m.
  - simpl. rewrite LimitOverLoad_update_unfold. by rewrite E.
Qed.

(** X7. The update of the overheat loop trips at every tick while a
    temperature stays above the limit: run again on the state a tripping
    run has left, it leaves the motors as they are, all compliant, and
    prints the same line and makes the same assignments once more. *)
Theorem overheat_update_trips_again (s : State) :
  overheat_loop (motors s) ∅ ≠ ∅ ->
  exists s1 s2,
    LimitTemperature_update s = (inr tt, s1) /\
    LimitTemperature_update s1 = (inr tt, s2) /\
    motors s2 = motors s1 /\
    Forall (fun m => compliant m = true) (motors s2) /\
    stdout s2 =
      stdout s1 ++ PrintLine "overheated motors: " (overheat_loop (motors s) ∅)
                :: ((fun m => SetCompliant (name m) true) <$> motors s).
Proof.
  intros Hne. apply truthy_spec in Hne.
  rewrite LimitTemperature_update_unfold, Hne.
  destruct (print_release "overheated motors: "
              (overheat_loop (motors s) ∅) s) as (s1 & Hs1 & Hm1 & Hall & _).
  exists s1. rewrite Hs1.
  rewrite LimitTemperature_update_unfold, Hm1.
  rewrite overheat_loop_make_compliant, Hne.
  destruct (print_release "overheated motors: "
              (overheat_loop (motors s) ∅) s1) as (s2 & Hs2 & Hm2 & _ & Ho2 & _).
  exists s2. rewrite Hs2. split; [done|]. split; [done|].
  rewrite Hm2, Ho2, Hm1, make_compliant_idemp, name_make_compliant.
  split; [done|]. split; [|done].
  apply Forall_fmap, Forall_true. by intros m.
Qed.

Lemma overheat_update_trips_again_witness :
  exists s1 s2,
    LimitTemperature_update overheated_robot = (inr tt, s1) /\
    LimitTemperature_update s1 = (inr tt, s2) /\
    motors s2 = motors s1 /\ length (stdout s2) = 6%nat.
Proof.
  destruct (overheat_update_trips_again overheated_robot)
    as (s1 & s2 & H1 & H2 & Hm & _ & Ho).
  - apply truthy_spec. by vm_compute.
  - exists s1, s2. split; [done|]. split; [done|]. split; [done|].
    rewrite Ho. injection H1 as <-. by vm_compute.
Defined.

(** ** The speed loop, end to end *)

(** The loop goes through when every motor has a speed. *)
Lemma speed_loop_total (freq : Q) (prev : gmap string (list Q))
    (ms : list Motor) (d : gmap string Q) :
  Forall (fun m => exists v, motor_speed freq prev m = inr v) ms ->
  exists d', speed_loop freq prev ms d = inr d'.
Proof.
  intros Hall. revert d.
  induction Hall as [|m rest [v Hv] _ IH]; intros d; simpl; [eauto|].
  rewrite Hv. apply IH.
Qed.

(** No motor too fast: the dictionary is the one the loop started from. *)
Lemma speed_loop_quiet (freq : Q) (prev : gmap string (list Q))
    (ms : list Motor) (d : gmap string Q) :
  (forall m, m ∈ ms ->
     exists v, motor_speed freq prev m = inr v /\
               Qgtb (Qabs v) SPEED_LIMIT = false) ->
  speed_loop freq prev ms d = inr d.
Proof.
  induction ms as [|m0 rest IH]; intros Hq; [done|].
  destruct (Hq m0) as (v & Hv & Hslow); [apply elem_of_cons; by left|].
  simpl. rewrite Hv, Hslow. apply IH.
  intros m Hm. apply Hq. apply elem_of_cons. by right.
Qed.

Lemma speed_loop_keeps (freq : Q) (prev : gmap string (list Q))
    (k : string) (ms : list Motor) (d d' : gmap string Q) :
  speed_loop freq prev ms d = inr d' -> is_Some (d !! k) -> is_Some (d' !! k).
Proof.
  revert d. induction ms as [|m0 rest IH]; intros d Hl Hk; simpl in Hl.
  - congruence.
  - destruct (motor_speed freq prev m0) as [e0|v0]; [done|].
    apply (IH _ Hl). destruct (Qgtb (Qabs v0) SPEED_LIMIT); [|done].
    destruct (decide (name m0 = k)) as [<-|Hne].
    + rewrite lookup_insert_eq. eauto.
    + by rewrite lookup_insert_ne.
Qed.

(** The name of a motor that is too fast has an entry. *)
Lemma speed_loop_records (freq : Q) (prev : gmap string (list Q))
    (ms : list Motor) (d d' : gmap string Q) (m : Motor) (v : Q) :
  speed_loop freq prev ms d = inr d' -> m ∈ ms ->
  motor_speed freq prev m = inr v -> Qgtb (Qabs v) SPEED_LIMIT = true ->
  is_Some (d' !! name m).
Proof.
  revert d. induction ms as [|m0 rest IH]; intros d Hl Hm Hv Hfast.
  - by apply elem_of_nil in Hm.
  - simpl in Hl.
    destruct (motor_speed freq prev m0) as [e0|v0] eqn:E0; [done|].
    apply elem_of_cons in Hm as [->|Hm]; [|by apply (IH _ Hl)].
    assert (v0 = v) as -> by congruence. rewrite Hfast in Hl.
    apply (speed_loop_keeps _ _ _ _ _ _ Hl). rewrite lookup_insert_eq. eauto.
Qed.

(** ** The limit in degrees per second *)

Lemma radians_abs (x : Q) : Qabs (math_radians x) == Qabs x * (math_pi / 180).
Proof.
  unfold math_radians. rewrite Qabs_Qmult.
  rewrite (Qabs_pos (math_pi / 180)); [reflexivity|]. by vm_compute.
Qed.

(** [SPEED_LIMIT] is what [math.radians] makes of 720. *)
Lemma radians_above_limit (x : Q) :
  Qgtb (Qabs (math_radians x)) SPEED_LIMIT = true <-> 720 < Qabs x.
Proof.
  rewrite Qgtb_lt, radians_abs.
  assert (Hl : SPEED_LIMIT == 720 * (math_pi / 180)) by (by vm_compute).
  rewrite Hl. assert (Hc : 0 < math_pi / 180) by (by vm_compute).
  split; intros H.
  - by apply Qmult_lt_r in H.
  - by apply Qmult_lt_r.
Qed.

Lemma radians_below_limit (x : Q) :
  Qabs x <= 720 -> Qgtb (Qabs (math_radians x)) SPEED_LIMIT = false.
Proof.
  intros Hx. destruct (Qgtb _ _) eqn:E; [|done].
  apply radians_above_limit in E. exfalso. exact (Qlt_not_le _ _ E Hx).
Qed.

Lemma slow_within_a_turn (d r f : Q) :
  r = 0.088 \/ r = 0.29 -> Qabs d <= 360 -> 1 <= f ->
  Qabs (d * r / f) <= 720.
Proof.
  intros Hr Hd Hf.
  apply Qabs_Qle_condition in Hd as [Hd1 Hd2].
  apply Qabs_Qle_condition.
  assert (Hpos : 0 < f) by lra.
  assert (Hi : 0 < / f) by (by apply Qinv_lt_0_compat).
  assert (Hfi : f * / f == 1) by (apply Qmult_inv_r; lra).
  unfold Qdiv. set (i := / f) in *.
  assert (Hi1 : i <= 1) by nra.
  destruct Hr as [-> | ->]; split; nra.
Qed.

(** At 1 Hz or more, a motor at most one turn away from its stored
    position has a speed, and the speed is not above the limit. *)
Lemma motor_speed_within_a_turn (freq : Q) (prev : gmap string (list Q))
    (m : Motor) :
  1 <= freq -> within_a_turn prev m ->
  exists v, motor_speed freq prev m = inr v /\
            Qgtb (Qabs v) SPEED_LIMIT = false.
Proof.
  intros Hf (Hk & p & history & Hp & Hd).
  destruct (resolution_of_known m Hk) as (r & Hr & Hr').
  assert (Hf0 : ~ freq == 0) by lra.
  rewrite (motor_speed_formula _ _ _ _ _ _ Hr Hp Hf0).
  eexists. split; [reflexivity|].
  apply radians_below_limit. by apply slow_within_a_turn.
Qed.

(** Whatever the names, [setup] binds the name of a motor to the position
    of a motor of that name. *)
Lemma setup_loop_lookup_some (k : string) (ms : list Motor)
    (d : gmap string (list Q)) :
  k ∈ name <$> ms ->
  exists m, m ∈ ms /\ name m = k /\
            setup_loop ms d !! k = Some [present_position m].
Proof.
  revert d. induction ms as [|m0 rest IH]; intros d Hk.
  - by apply elem_of_nil in Hk.
  - simpl. destruct (decide (k ∈ name <$> rest)) as [Hin|Hout].
    + destruct (IH (<[name m0 := [present_position m0]]> d) Hin)
        as (m & Hm & Hn & Hl).
      exists m. split; [apply elem_of_cons; by right|]. done.
    + rewrite fmap_cons in Hk. apply elem_of_cons in Hk as [->|Hk]; [|done].
      exists m0. split; [apply elem_of_cons; by left|]. split; [done|].
      rewrite (setup_loop_lookup_other _ _ _ Hout). apply lookup_insert_eq.
Qed.

(** X8. With unique names, when the first loop of the speed update goes
    through, its dictionary has an entry for a motor if and only if the
    absolute value of the motor's speed is above [SPEED_LIMIT], and the
    entry is that speed. *)
Theorem speed_verdict_iff (freq : Q) (prev : gmap string (list Q))
    (ms : list Motor) (d : gmap string Q) (m : Motor) (v : Q) :
  NoDup (name <$> ms) -> m ∈ ms ->
  speed_loop freq prev ms ∅ = inr d ->
  motor_speed freq prev m = inr v ->
  (is_Some (d !! name m) <-> SPEED_LIMIT < Qabs v) /\
  (is_Some (d !! name m) -> d !! name m = Some v).
Proof.
  intros Hnd Hm Hd Hv.
  rewrite (speed_loop_spec freq prev ms d m v Hnd Hm Hd Hv).
  destruct (Qgtb (Qabs v) SPEED_LIMIT) eqn:E.
  - apply Qgtb_lt in E. split; [|done]. split; eauto.
  - apply Qgtb_le in E. split; [|by intros [x Hx]].
    split; [by intros [x Hx]|]. intros Hl. exfalso.
    exact (Qlt_not_le _ _ Hl E).
Qed.

Lemma speed_verdict_iff_witness :
  exists d v,
    speed_loop slow_loop_freq (prev_position fast_robot) (motors fast_robot) ∅
    = inr d /\ d !! "m1" = Some v /\ SPEED_LIMIT < Qabs v /\
    d !! "m2" = None.
Proof.
  assert (Hnd : NoDup (name <$> motors fast_robot))
    by (apply (bool_decide_unpack _); by vm_compute).
  assert (Hd : exists d,
      speed_loop slow_loop_freq (prev_position fast_robot)
        (motors fast_robot) ∅ = inr d)
    by (eexists; vm_compute; reflexivity).
  destruct Hd as [d Hd].
  assert (H1 : exists v, motor_speed slow_loop_freq (prev_position fast_robot)
                           (motor "m1" "AX-12" 0 150 30) = inr v /\
                         SPEED_LIMIT < Qabs v)
    by (eexists; split; vm_compute; reflexivity).
  destruct H1 as (v & Hv & Hfast).
  assert (H2 : exists w, motor_speed slow_loop_freq (prev_position fast_robot)
                           (motor "m2" "MX-28" 0 10 30) = inr w /\
                         ~ SPEED_LIMIT < Qabs w)
    by (eexists; split; [vm_compute; reflexivity|by vm_compute]).
  destruct H2 as (w & Hw & Hslow).
  destruct (speed_verdict_iff slow_loop_freq (prev_position fast_robot)
              (motors fast_robot) d (motor "m1" "AX-12" 0 150 30) v Hnd)
    as [Hiff Hval]; [apply elem_of_cons; by left|done|done|].
  destruct (speed_verdict_iff slow_loop_freq (prev_position fast_robot)
              (motors fast_robot) d (motor "m2" "MX-28" 0 10 30) w Hnd)
    as [Hiff2 _];
    [apply elem_of_cons; right; apply elem_of_cons; by left|done|done|].
  exists d, v. split; [done|]. split; [apply Hval, Hiff, Hfast|].
  split; [done|].
  destruct (d !! "m2") as [x|] eqn:E; [|done].
  exfalso. apply Hslow, Hiff2. by exists x.
Defined.

(** X9. When every motor has a speed (no exception), the update of the
    speed loop releases the whole robot if the speed of some motor is above
    [SPEED_LIMIT] in absolute value, and does nothing at all if none is;
    the names of the motors need not be unique. *)
Theorem speed_update_releases_iff (freq : Q) (s : State) :
  Forall (fun m => exists v, motor_speed freq (prev_position s) m = inr v)
         (motors s) ->
  ((exists m v, m ∈ motors s /\
      motor_speed freq (prev_position s) m = inr v /\
      SPEED_LIMIT < Qabs v) ->
   exists d s',
     speed_loop freq (prev_position s) (motors s) ∅ = inr d /\
     LimitSpeed_update freq s = (inr tt, s') /\
     released_once "overspeeding motors: " d s s') /\
  ((forall m v, m ∈ motors s ->
      motor_speed freq (prev_position s) m = inr v ->
      Qabs v <= SPEED_LIMIT) ->
   LimitSpeed_update freq s = (inr tt, s)).
Proof.
  intros Hall. rewrite LimitSpeed_update_unfold. split.
  - intros (m & v & Hm & Hv & Hfast).
    destruct (speed_loop_total freq (prev_position s) (motors s) ∅ Hall)
      as [d Hd].
    assert (Ht : truthy d = true).
    { apply truthy_spec. intros He.
      destruct (speed_loop_records _ _ _ _ _ m v Hd Hm Hv) as [x Hx];
        [by apply Qgtb_lt|].
      by rewrite He, lookup_empty in Hx. }
    rewrite Hd, Ht.
    destruct (print_release "overspeeding motors: " d s) as (s' & Hs' & Hr).
    by exists d, s'.
  - intros Hq. rewrite speed_loop_quiet; [done|].
    intros m Hm.
    destruct (proj1 (Forall_forall _ _) Hall m Hm) as [v Hv].
    exists v. split; [done|]. apply Qgtb_le. by apply (Hq m).
Qed.

Lemma speed_update_releases_iff_witness :
  exists d s',
    speed_loop slow_loop_freq (prev_position fast_robot) (motors fast_robot) ∅
    = inr d /\
    LimitSpeed_update slow_loop_freq fast_robot = (inr tt, s') /\
    released_once "overspeeding motors: " d fast_robot s'.
Proof.
  apply (speed_update_releases_iff slow_loop_freq fast_robot).
  - repeat (apply Forall_cons; split;
            [eexists; vm_compute; reflexivity|]).
    apply Forall_nil_2.
  - exists (motor "m1" "AX-12" 0 150 30). eexists.
    split; [apply elem_of_cons; by left|].
    split; [vm_compute; reflexivity|by vm_compute].
Defined.

(** ** Exceptions of the speed loop *)

(** X10. Once [setup] has run, a tick on fresh readings of the same motors
    returns normally when the models are known and the frequency is not
    zero: no [KeyError], [IndexError] or [ZeroDivisionError] is raised,
    wherever the motors have moved. *)
Theorem speed_update_returns_after_setup (freq : Q) (s : State)
    (ms' : list Motor) :
  ~ freq == 0 -> Forall known_model ms' ->
  (forall m', m' ∈ ms' -> name m' ∈ name <$> motors s) ->
  fst (LimitSpeed_update freq (refresh ms' (snd (LimitSpeed_setup s))))
  = inr tt.
Proof.
  intros Hf Hk Hnames. rewrite LimitSpeed_update_unfold. simpl.
  destruct (speed_loop_total freq
              (setup_loop (motors s) (prev_position s)) ms' ∅) as [d Hd].
  - apply Forall_forall. intros m' Hm'.
    destruct (resolution_of_known m'
                (proj1 (Forall_forall _ _) Hk m' Hm')) as (r & Hr & _).
    destruct (setup_loop_lookup_some (name m') (motors s) (prev_position s)
                (Hnames m' Hm')) as (m & _ & _ & Hp).
    eexists. by apply (motor_speed_formula _ _ _ _ [] _ Hr Hp Hf).
  - rewrite Hd. by destruct (truthy d).
Qed.

Lemma speed_update_returns_after_setup_witness :
  fst (LimitSpeed_update 50 moved_robot) = inr tt.
Proof.
  apply (speed_update_returns_after_setup 50
           (LimitSpeed_init [motor "m2" "MX-28" 0 10 30])
           [motor "m2" "MX-28" 0 20 30]).
  - intros H. vm_compute in H. discriminate H.
  - apply Forall_cons. split; [|apply Forall_nil_2].
    apply (bool_decide_unpack _). by vm_compute.
  - intros m' Hm'. apply elem_of_cons in Hm' as [->|Hm'];
      [|by apply elem_of_nil in Hm'].
    apply elem_of_cons. by left.
Defined.

(** X11. When the loop of the speed update reaches a motor of a known model
    whose name has no entry in [prev_position] (the motors before it have a
    speed), the update raises [KeyError] with that name and the state is
    the one the tick started from: nothing is printed, no motor is
    released. *)
Theorem missing_entry_raises_KeyError (freq : Q) (s : State)
    (before after : list Motor) (m : Motor) :
  motors s = before ++ m :: after ->
  Forall (fun m' => exists v, motor_speed freq (prev_position s) m' = inr v)
         before ->
  known_model m -> prev_position s !! name m = None ->
  LimitSpeed_update freq s = (inl (KeyError (name m)), s).
Proof.
  intros Hms Hb Hk Hp.
  destruct (resolution_of_known m Hk) as (r & Hr & _).
  assert (He : motor_speed freq (prev_position s) m = inl (KeyError (name m))).
  { unfold motor_speed, getitem. by rewrite Hr, Hp. }
  rewrite LimitSpeed_update_unfold, Hms.
  by rewrite (speed_loop_raises _ _ _ _ _ _ _ Hb He).
Qed.

Lemma missing_entry_raises_KeyError_witness :
  LimitSpeed_update 50 unseeded_robot = (inl (KeyError "m1"), unseeded_robot).
Proof.
  apply (missing_entry_raises_KeyError 50 unseeded_robot []
           [motor "m2" "AX-12" 0 0 30] (motor "m1" "MX-28" 0 0 30)).
  - reflexivity.
  - apply Forall_nil_2.
  - apply (bool_decide_unpack _). by vm_compute.
  - reflexivity.
Defined.

(** X12. At a frequency of zero, a tick on a robot whose first motor has a
    known model and a stored position raises [ZeroDivisionError], and the
    state is the one the tick started from. *)
Theorem zero_frequency_raises (freq : Q) (s : State) (m : Motor)
    (rest : list Motor) (p : Q) (history : list Q) :
  freq == 0 -> motors s = m :: rest -> known_model m ->
  prev_position s !! name m = Some (p :: history) ->
  LimitSpeed_update freq s = (inl ZeroDivisionError, s).
Proof.
  intros Hf Hms Hk Hp.
  destruct (resolution_of_known m Hk) as (r & Hr & _).
  assert (He : motor_speed freq (prev_position s) m = inl ZeroDivisionError).
  { unfold motor_speed, getitem, truediv. rewrite Hr, Hp. simpl.
    by rewrite (proj2 (Qeq_bool_iff freq 0) Hf). }
  rewrite LimitSpeed_update_unfold, Hms. simpl. by rewrite He.
Qed.

Lemma zero_frequency_raises_witness :
  LimitSpeed_update 0 quiet_robot = (inl ZeroDivisionError, quiet_robot).
Proof.
  apply (zero_frequency_raises 0 quiet_robot (motor "m1" "MX-28" 10 0 30)
           [motor "m2" "AX-12" 10 10 30] 0 []); try reflexivity.
  apply (bool_decide_unpack _). by vm_compute.
Defined.

(** ** What the speed loop cannot see *)

(** X13. At a loop frequency of 1 Hz or more, a tick of the speed loop on
    motors of known models that are each at most 360 degrees away from
    their stored position does nothing: no motor is recorded, nothing is
    printed, no motor is released. *)
Theorem speed_update_quiet_within_a_turn (freq : Q) (s : State) :
  1 <= freq -> Forall (within_a_turn (prev_position s)) (motors s) ->
  LimitSpeed_update freq s = (inr tt, s).
Proof.
  intros Hf Hall. rewrite LimitSpeed_update_unfold.
  rewrite speed_loop_quiet; [done|].
  intros m Hm. apply motor_speed_within_a_turn; [done|].
  by apply (proj1 (Forall_forall _ _) Hall).
Qed.

Lemma speed_update_quiet_within_a_turn_witness :
  LimitSpeed_update 50 turning_robot = (inr tt, turning_robot).
Proof.
  apply speed_update_quiet_within_a_turn; [by vm_compute|].
  apply Forall_cons. split; [|apply Forall_nil_2].
  split; [apply (bool_decide_unpack _); by vm_compute|].
  exists (-90), []. split; [reflexivity|by vm_compute].
Defined.

(** ** A robot without motors *)

(** X14. On a robot that has no motor, a tick of each of the three loops
    returns normally and changes nothing, at any frequency, zero included,
    and whatever [prev_position] holds. *)
Theorem updates_on_empty_robot (freq : Q) (s : State) :
  motors s = [] ->
  LimitOverLoad_update s = (inr tt, s) /\
  LimitSpeed_update freq s = (inr tt, s) /\
  LimitTemperature_update s = (inr tt, s).
Proof.
  intros Hms.
  rewrite LimitOverLoad_update_unfold, LimitSpeed_update_unfold,
    LimitTemperature_update_unfold, Hms. simpl.
  by rewrite (proj2 (truthy_empty ∅) eq_refl).
Qed.

Lemma updates_on_empty_robot_witness :
  LimitSpeed_update 0 (LimitSpeed_init []) = (inr tt, LimitSpeed_init []).
Proof. by apply (updates_on_empty_robot 0 (LimitSpeed_init [])). Defined.

(** ** The dictionary of [setup] *)

(** X15. After [setup], the name of every motor is bound to a one-element
    list that holds the position of a motor of that name, which is the
    motor itself when names are unique; the entries of all other names are
    those the dictionary had, and the motors and the output are left as
    they are. *)
Theorem setup_binds_positions (s : State) :
  let s' := snd (LimitSpeed_setup s) in
  (forall m, m ∈ motors s ->
     exists m', m' ∈ motors s /\ name m' = name m /\
       prev_position s' !! name m = Some [present_position m']) /\
  (NoDup (name <$> motors s) ->
   forall m, m ∈ motors s ->
     prev_position s' !! name m = Some [present_position m]) /\
  (forall k, k ∉ name <$> motors s ->
     prev_position s' !! k = prev_position s !! k) /\
  motors s' = motors s /\ stdout s' = stdout s.
Proof.
  intros s'. subst s'. simpl. split; [|split; [|split]].
  - intros m Hm. apply setup_loop_lookup_some. by apply list_elem_of_fmap_2.
  - intros Hnd m Hm. by apply setup_loop_lookup.
  - intros k Hk. by apply setup_loop_lookup_other.
  - done.
Qed.

Lemma setup_binds_positions_witness :
  prev_position (snd (LimitSpeed_setup (refresh (motors moved_robot)
                                                moved_robot))) !! "m2"
  = Some [20].
Proof.
  destruct (setup_binds_positions (refresh (motors moved_robot) moved_robot))
    as (_ & Hunique & _).
  apply (Hunique (ltac:(apply (bool_decide_unpack _); by vm_compute))
                 (motor "m2" "MX-28" 0 20 30)).
  apply elem_of_cons. by left.
Defined.

(** ** [setup], then [update] *)

(** X16. A tick that follows [setup] with no motor moved in between does
    nothing, when names are unique, models are known and the frequency is
    not zero: every speed is zero, nothing is printed and no motor is
    released. *)
Theorem update_after_setup_is_quiet (freq : Q) (s : State) :
  NoDup (name <$> motors s) -> Forall known_model (motors s) ->
  ~ freq == 0 ->
  LimitSpeed_update freq (snd (LimitSpeed_setup s))
  = (inr tt, snd (LimitSpeed_setup s)).
Proof.
  intros Hnd Hk Hf. rewrite LimitSpeed_update_unfold.
  rewrite speed_loop_quiet; [done|].
  intros m Hm. simpl in Hm.
  destruct (motor_speed_unmoved freq s m m Hnd Hm eq_refl (Qeq_refl _)
              (proj1 (Forall_forall _ _) Hk m Hm) Hf) as (v & Hv & _ & Hslow).
  by exists v.
Qed.

Lemma update_after_setup_is_quiet_witness :
  LimitSpeed_update slow_loop_freq
    (snd (LimitSpeed_setup (refresh (motors fast_robot) fast_robot)))
  = (inr tt, snd (LimitSpeed_setup (refresh (motors fast_robot) fast_robot))).
Proof.
  apply update_after_setup_is_quiet.
  - apply (bool_decide_unpack _). by vm_compute.
  - repeat (apply Forall_cons; split;
            [apply (bool_decide_unpack _); by vm_compute|]).
    apply Forall_nil_2.
  - intros H. vm_compute in H. discriminate H.
Defined.
